(** * Packer: rectangle packing over a binary tree of regions

    Shallow embedding of [sse::Packer] (Packer.hpp).  The header defines the
    tree node, [Packer::Node], with its constructor and the inline members
    [add_object], [fits], [full] and [leaf]; these are transcribed from the
    code.  The members [pack], [arrange], [insert_search], [grow_up],
    [grow_right] and [translate] are only declared there; their bodies are
    modelled from the specification and are marked as such.

    Numbers: the code computes on [double].  The development has two
    models of the same code.  The first is in exact rational arithmetic
    ([Q]): it carries the statements on the shape of the tree, on the choice
    of the growth move and on what [fits] admits.  The second is on IEEE
    binary64 ([spec_float], round to nearest even): it carries the
    statements that rounding, infinities or NaN decide. *)

From Stdlib Require Import QArith Qabs Qminmax Qpower SpecFloat.
From Stdlib Require Import List Bool Arith Lia Lqa Permutation.
Import ListNotations.

Local Open Scope Q_scope.

(** ** Objects

    [Object *] in the code: the packer reads [width()] and [length()] and
    keeps the pointer.  [oid] stands for the pointer's identity. *)

Record Object : Type := mkObject {
  oid : nat;
  owidth : Q;
  olength : Q
}.

(** A pointer to a node of the tree, as the walk from the root that reaches
    it. *)
Inductive dir : Type := Up | Right.

Definition path : Type := list dir.

(** ** Packer::Node *)

Module Node.

(** [struct Node]: position, extents, the two owned children and the
    object pointer; a null pointer is [None]. *)
#[local] Unset Elimination Schemes.
Inductive t : Type :=
  mk (x y width length : Q) (up right : option t) (object : option Object).
#[local] Set Elimination Schemes.

Definition x (n : t) : Q := let 'mk a _ _ _ _ _ _ := n in a.
Definition y (n : t) : Q := let 'mk _ a _ _ _ _ _ := n in a.
Definition width (n : t) : Q := let 'mk _ _ a _ _ _ _ := n in a.
Definition length (n : t) : Q := let 'mk _ _ _ a _ _ _ := n in a.
Definition up (n : t) : option t := let 'mk _ _ _ _ a _ _ := n in a.
Definition right (n : t) : option t := let 'mk _ _ _ _ _ a _ := n in a.
Definition object (n : t) : option Object := let 'mk _ _ _ _ _ _ a := n in a.

(** [Node(x, y, w, l, up = nullptr, right = nullptr)]: the object pointer
    starts null. *)
Definition new (x y w l : Q) (up right : option t) : t :=
  mk x y w l up right None.

(** [Node(x, y, w, l)], both children defaulted. *)
Definition new_leaf (x y w l : Q) : t := new x y w l None None.

(** [add_object]: record the object, then build the two children from the
    node's own fields and the object's extents. *)
Definition add_object (n : t) (o : Object) : t :=
  mk (x n) (y n) (width n) (length n)
     (Some (new_leaf (x n) (y n + olength o) (width n) (length n - olength o)))
     (Some (new_leaf (x n + olength o) (y n) (width n - owidth o) (length n)))
     (Some o).

(** [fits]: [(o->length() <= length) && (o->width() <= width)]. *)
Definition fits (n : t) (o : Object) : bool :=
  Qle_bool (olength o) (length n) && Qle_bool (owidth o) (width n).

(** [full]: [object != nullptr]. *)
Definition full (n : t) : bool :=
  match object n with Some _ => true | None => false end.

(** [leaf]: [up == nullptr]. *)
Definition leaf (n : t) : bool :=
  match up n with Some _ => false | None => true end.

(** Dereference a child pointer. *)
Definition child (d : dir) (n : t) : option t :=
  match d with Up => up n | Right => right n end.

(** The node a pointer designates. *)
Fixpoint get (p : path) (n : t) : option t :=
  match p with
  | [] => Some n
  | d :: p' =>
      match child d n with
      | Some c => get p' c
      | None => None
      end
  end.

(** In-place update of the node a pointer designates; a pointer that
    leaves the tree changes nothing. *)
Fixpoint update (p : path) (f : t -> t) (n : t) : t :=
  match p with
  | [] => f n
  | Up :: p' =>
      mk (x n) (y n) (width n) (length n)
         (option_map (update p' f) (up n)) (right n) (object n)
  | Right :: p' =>
      mk (x n) (y n) (width n) (length n)
         (up n) (option_map (update p' f) (right n)) (object n)
  end.

(** A property that holds at every node of a tree. *)
Fixpoint Forall (P : t -> Prop) (n : t) : Prop :=
  match n with
  | mk _ _ _ _ u r _ =>
      P n /\
      match u with Some c => Forall P c | None => True end /\
      match r with Some c => Forall P c | None => True end
  end.

End Node.

(** ** Packer *)

(** [pack] documents one failure: [std::runtime_error] when the bin cannot
    be grown properly. *)
Inductive error : Type := GrowthFailure.

Inductive result (A : Type) : Type :=
  | Ok (a : A)
  | Err (e : error).
Arguments Ok {A} a.
Arguments Err {A} e.

(** One call [o->place(x, y)] made on an object. *)
Record PlaceCall : Type := mkPlaceCall {
  pc_obj : Object;
  pc_x : Q;
  pc_y : Q
}.

(** The two growth moves. *)
Inductive growth : Type := GrowUp | GrowRight.

(** [a < b] on the numbers of the model. *)
Definition Qltb (a b : Q) : bool := negb (Qle_bool b a).

Module Packer.

(** [class Packer]: the objects to pack and the root of the tree (a null
    [unique_ptr] until [pack] runs). *)
Record t : Type := mk {
  objects : list Object;
  root : option Node.t
}.

(** [Packer(objects)]. *)
Definition new (objs : list Object) : t := mk objs None.

(** Modelled from the spec: the body of [Packer::insert_search], which the
    header only declares.  Depth-first from the given node: an unoccupied,
    childless region succeeds when the item fits it; otherwise the search
    goes into [right] first, then into [up].  The spec words the descent
    for occupied regions; the root made by a growth move has children and
    no item, and the walk descends through it in the same way.  The result
    is the pointer to the region found. *)
Fixpoint insert_search (node : Node.t) (o : Object) : option path :=
  match node with
  | Node.mk _ _ _ _ u r _ =>
      if Node.full node || negb (Node.leaf node) then
        match
          match r with
          | Some c => option_map (cons Right) (insert_search c o)
          | None => None
          end
        with
        | Some p => Some p
        | None =>
            match u with
            | Some c => option_map (cons Up) (insert_search c o)
            | None => None
            end
        end
      else if Node.fits node o then Some [] else None
  end.

(** Modelled from the spec: the body of [Packer::grow_up].  The new root
    covers (0,0) to (max(current_width, width), current_length + length);
    the old root becomes its [right] child, and a fresh region of the
    requested extents, at (0, current_length), its [up] child.  Returns
    the new root and the pointer to the fresh region. *)
Definition grow_up (r : Node.t) (w l : Q) : Node.t * path :=
  (Node.new 0 0 (Qmax (Node.width r) w) (Node.length r + l)
     (Some (Node.new_leaf 0 (Node.length r) w l))
     (Some r),
   [Up]).

(** Modelled from the spec: the body of [Packer::grow_right], symmetric
    along the x axis: the old root becomes the [up] child and the fresh
    region, at (current_width, 0), the [right] child. *)
Definition grow_right (r : Node.t) (w l : Q) : Node.t * path :=
  (Node.new 0 0 (Node.width r + w) (Qmax (Node.length r) l)
     (Some r)
     (Some (Node.new_leaf (Node.width r) 0 w l)),
   [Right]).

(** |new_width - new_length| of the bin each move would give. *)
Definition skew_up (r : Node.t) (w l : Q) : Q :=
  Qabs (Qmax (Node.width r) w - (Node.length r + l)).

Definition skew_right (r : Node.t) (w l : Q) : Q :=
  Qabs ((Node.width r + w) - Qmax (Node.length r) l).

(** Modelled from the spec: the choice of the growth move, part of the
    body of [Packer::pack].  The move with the smaller skew wins; on equal
    skews the axis that is currently smaller grows (width: grow right,
    length: grow up).  The spec leaves open the case of equal skews on a
    square bin; the model grows up there. *)
Definition choose_growth (r : Node.t) (w l : Q) : growth :=
  if Qltb (skew_up r w l) (skew_right r w l) then GrowUp
  else if Qltb (skew_right r w l) (skew_up r w l) then GrowRight
  else if Qltb (Node.width r) (Node.length r) then GrowRight
  else GrowUp.

Definition grow (r : Node.t) (w l : Q) : Node.t * path :=
  match choose_growth r w l with
  | GrowUp => grow_up r w l
  | GrowRight => grow_right r w l
  end.

(** Modelled from the spec: the placement of one item (section 4.4).
    Search; on success split the region found; otherwise grow, search once
    more in the fresh region, and split it, or fail.  The tree is returned
    in both cases: a failure leaves the grown tree in place.  In exact
    arithmetic an item is placed whatever its extents; the InvalidItem rule
    of section 7, which speaks of infinite and NaN extents too, is part of
    the binary64 model ([DPacker.pack_loop]). *)
Definition pack_object (r : Node.t) (o : Object) : Node.t * option error :=
  match insert_search r o with
  | Some p => (Node.update p (fun n => Node.add_object n o) r, None)
  | None =>
      let (r', p) := grow r (owidth o) (olength o) in
      match
        match Node.get p r' with
        | Some fresh => insert_search fresh o
        | None => None
        end
      with
      | Some q => (Node.update (p ++ q) (fun n => Node.add_object n o) r', None)
      | None => (r', Some GrowthFailure)
      end
  end.

Fixpoint pack_loop (r : Node.t) (objs : list Object) : Node.t * option error :=
  match objs with
  | [] => (r, None)
  | o :: rest =>
      match pack_object r o with
      | (r', None) => pack_loop r' rest
      | (r', Some e) => (r', Some e)
      end
  end.

(** Modelled from the spec: the initial bin.  The spec reads the bin off
    the root (section 4.4), gives the bin (0, 0) for no item (section 8) and
    puts every root at the origin (section 4.3); the root before the first
    item is therefore the empty region at the origin. *)
Definition seed : Node.t := Node.new_leaf 0 0 0 0.

(** Modelled from the spec: the body of [Packer::pack].  Starts from the
    seed, places the objects in their order, and reads the bin off the
    root.  It makes no [place] call. *)
Definition pack (p : t) : result (Q * Q) * t :=
  let (r, e) := pack_loop seed (objects p) in
  (match e with
   | None => Ok (Node.width r, Node.length r)
   | Some e => Err e
   end,
   mk (objects p) (Some r)).

(** Modelled from the spec: the body of [Packer::translate].  At an
    occupied region the object is placed at the region's origin plus the
    offset; both children are visited whether or not the region is
    occupied.  The result is the list of [place] calls in the order they
    are made. *)
Fixpoint translate (node : Node.t) (offset_x offset_y : Q) : list PlaceCall :=
  match node with
  | Node.mk x y _ _ u r obj =>
      match obj with
      | Some o => [mkPlaceCall o (x + offset_x) (y + offset_y)]
      | None => []
      end
      ++ match u with Some c => translate c offset_x offset_y | None => [] end
      ++ match r with Some c => translate c offset_x offset_y | None => [] end
  end.

(** Modelled from the spec: the body of [Packer::arrange]: walk the tree
    from the root; nothing happens when there is no tree. *)
Definition arrange (p : t) (offset_x offset_y : Q) : list PlaceCall :=
  match root p with
  | Some r => translate r offset_x offset_y
  | None => []
  end.

End Packer.

(** ** Reachable trees

    The operations that act on a tree: a search (which reads only), a split
    by [add_object] at some node, and the two growth moves.  A reachable
    tree is what a sequence of them makes of a fresh childless region. *)

Inductive step : Node.t -> Node.t -> Prop :=
  | step_search (t : Node.t) (o : Object) (found : option path) :
      Packer.insert_search t o = found -> step t t
  | step_place (t : Node.t) (p : path) (o : Object) :
      step t (Node.update p (fun n => Node.add_object n o) t)
  | step_grow_up (t : Node.t) (w l : Q) :
      step t (fst (Packer.grow_up t w l))
  | step_grow_right (t : Node.t) (w l : Q) :
      step t (fst (Packer.grow_right t w l)).

Inductive reachable : Node.t -> Prop :=
  | reach_seed (x y w l : Q) : reachable (Node.new_leaf x y w l)
  | reach_step (t t' : Node.t) : reachable t -> step t t' -> reachable t'.

(** The children of a node come as a pair. *)
Definition paired (n : Node.t) : Prop :=
  Node.up n = None <-> Node.right n = None.

(** A node that holds an object has both children. *)
Definition split_if_full (n : Node.t) : Prop :=
  Node.full n = true -> Node.up n <> None /\ Node.right n <> None.

Definition node_ok (n : Node.t) : Prop := paired n /\ split_if_full n.

Definition wf (t : Node.t) : Prop := Node.Forall node_ok t.

(** ** Relabelling

    Two runs on the same items see them at different addresses.  A
    relabelling replaces every object pointer held by a tree, or by a list
    of calls, through [f]. *)

Fixpoint relabel_tree (f : Object -> Object) (n : Node.t) : Node.t :=
  match n with
  | Node.mk x y w l u r obj =>
      Node.mk x y w l
        (match u with Some c => Some (relabel_tree f c) | None => None end)
        (match r with Some c => Some (relabel_tree f c) | None => None end)
        (option_map f obj)
  end.

Definition relabel_call (f : Object -> Object) (c : PlaceCall) : PlaceCall :=
  mkPlaceCall (f (pc_obj c)) (pc_x c) (pc_y c).

(** [f] changes identities only, not extents. *)
Definition keeps_extents (f : Object -> Object) : Prop :=
  forall o, owidth (f o) = owidth o /\ olength (f o) = olength o.

(** ** Input contract of the exact model *)

(** The input contract: positive extents. *)
Definition valid (o : Object) : Prop := 0 < owidth o /\ 0 < olength o.

(** A second packer on the same items under other identities. *)
Definition readdress (o : Object) : Object :=
  mkObject (oid o + 100) (owidth o) (olength o).

(** ** Trees used below *)

(** The tree each move leaves once the fresh region holds the item. *)
Definition grown_up (r : Node.t) (o : Object) : Node.t :=
  Node.mk 0 0 (Qmax (Node.width r) (owidth o)) (Node.length r + olength o)
    (Some (Node.add_object (Node.new_leaf 0 (Node.length r) (owidth o) (olength o)) o))
    (Some r) None.

Definition grown_right (r : Node.t) (o : Object) : Node.t :=
  Node.mk 0 0 (Node.width r + owidth o) (Qmax (Node.length r) (olength o))
    (Some r)
    (Some (Node.add_object (Node.new_leaf (Node.width r) 0 (owidth o) (olength o)) o))
    None.

(** The tree after one item 10 x 5: the seed, grown upwards, the fresh
    region split. *)
Definition one_item_tree : Node.t :=
  Node.update [Up] (fun n => Node.add_object n (mkObject 0 10 5))
    (fst (Packer.grow_up Packer.seed 10 5)).

(** ** Proof steps *)


Ltac node_simpl :=
  unfold Node.add_object, Node.new_leaf, Node.new;
  cbn [relabel_tree Node.x Node.y Node.width Node.length Node.up Node.right
       Node.object Node.new Node.new_leaf Node.add_object Node.update
       option_map].

(** ** Rectangles

    A node "corresponds to a rectangle in the cartesian plane", width along
    X and length along Y.  [region] is the rectangle of a node; [footprint]
    is the rectangle an object takes once it is added to the node, from the
    node's origin. *)

Record Rect : Type := mkRect {
  rx : Q;
  ry : Q;
  rw : Q;
  rl : Q
}.

Definition region (n : Node.t) : Rect :=
  mkRect (Node.x n) (Node.y n) (Node.width n) (Node.length n).

Definition footprint (n : Node.t) (o : Object) : Rect :=
  mkRect (Node.x n) (Node.y n) (owidth o) (olength o).

(** [a] lies within [b]. *)
Definition rect_inside (a b : Rect) : Prop :=
  rx b <= rx a /\ rx a + rw a <= rx b + rw b /\
  ry b <= ry a /\ ry a + rl a <= ry b + rl b.

(** The interiors of [a] and [b] meet. *)
Definition rect_overlap (a b : Rect) : Prop :=
  rx a < rx b + rw b /\ rx b < rx a + rw a /\
  ry a < ry b + rl b /\ ry b < ry a + rl a.

(** [a] and [b] share no interior point. *)
Definition rect_disjoint (a b : Rect) : Prop :=
  rx a + rw a <= rx b \/ rx b + rw b <= rx a \/
  ry a + rl a <= ry b \/ ry b + rl b <= ry a.

(** Unfold a child of a split to its fields. *)
Ltac split_child H :=
  unfold Node.add_object, Node.new_leaf, Node.new in H;
  cbn [Node.up Node.right] in H;
  injection H as <-;
  unfold region, footprint, rect_inside, rect_overlap, rect_disjoint;
  cbn [Node.x Node.y Node.width Node.length rx ry rw rl].


(** * The same code on binary64

    The node's fields are [const double].  This part repeats the model with
    IEEE binary64 values ([spec_float] at precision 53 and maximal exponent
    1024, round to nearest even), so that rounding, infinities and NaN are
    those of the code. *)

Module Double.

Definition t : Type := spec_float.

Definition prec : Z := 53%Z.
Definition emax : Z := 1024%Z.

Definition zero : t := S754_zero false.

(** [a + b], [a - b], [a <= b] and [a < b] on [double]. *)
Definition add (a b : t) : t := SFadd prec emax a b.
Definition sub (a b : t) : t := SFsub prec emax a b.
Definition leb (a b : t) : bool := SFleb a b.
Definition ltb (a b : t) : bool := SFltb a b.

(** [std::abs]. *)
Definition abs (a : t) : t := SFabs a.

(** [std::max(a, b)]: [(a < b) ? b : a]. *)
Definition max (a b : t) : t := if ltb a b then b else a.

(** The double nearest to an integer. *)
Definition of_Z (z : Z) : t := binary_normalize prec emax z 0%Z false.

(** Finite and greater than zero. *)
Definition positive_finite (a : t) : bool :=
  match a with
  | S754_finite false _ _ => true
  | _ => false
  end.

(** [0 <= a]; false on NaN. *)
Definition nonneg (a : t) : Prop := leb zero a = true.

(** Neither infinite nor NaN. *)
Definition is_finite (a : t) : bool :=
  match a with
  | S754_zero _ | S754_finite _ _ _ => true
  | _ => false
  end.

(** The rational a finite double stands for: [m * 2^e], with its sign. *)
Definition value (a : t) : Q :=
  match a with
  | S754_finite s m e =>
      (if s then - inject_Z (Zpos m) else inject_Z (Zpos m)) * Qpower 2 e
  | _ => 0
  end.

(** The double [a] is finite and stands for exactly [q]: the operation that
    gave [a] did not round, overflow or give NaN. *)
Definition exactly (a : t) (q : Q) : Prop :=
  is_finite a = true /\ value a == q.

End Double.

(** [Object *] with [double] extents. *)
Module DObject.

Record t : Type := mk {
  id : nat;
  width : Double.t;
  length : Double.t
}.

End DObject.

(** [Packer::Node] on [double]. *)
Module DNode.

#[local] Unset Elimination Schemes.
Inductive t : Type :=
  mk (x y width length : Double.t) (up right : option t)
     (object : option DObject.t).
#[local] Set Elimination Schemes.

Definition x (n : t) : Double.t := let 'mk a _ _ _ _ _ _ := n in a.
Definition y (n : t) : Double.t := let 'mk _ a _ _ _ _ _ := n in a.
Definition width (n : t) : Double.t := let 'mk _ _ a _ _ _ _ := n in a.
Definition length (n : t) : Double.t := let 'mk _ _ _ a _ _ _ := n in a.
Definition up (n : t) : option t := let 'mk _ _ _ _ a _ _ := n in a.
Definition right (n : t) : option t := let 'mk _ _ _ _ _ a _ := n in a.
Definition object (n : t) : option DObject.t := let 'mk _ _ _ _ _ _ a := n in a.

(** [Node(x, y, w, l, up = nullptr, right = nullptr)]. *)
Definition new (x y w l : Double.t) (up right : option t) : t :=
  mk x y w l up right None.

Definition new_leaf (x y w l : Double.t) : t := new x y w l None None.

(** [add_object], with the code's four double operations. *)
Definition add_object (n : t) (o : DObject.t) : t :=
  mk (x n) (y n) (width n) (length n)
     (Some (new_leaf (x n) (Double.add (y n) (DObject.length o)) (width n)
                     (Double.sub (length n) (DObject.length o))))
     (Some (new_leaf (Double.add (x n) (DObject.length o)) (y n)
                     (Double.sub (width n) (DObject.width o)) (length n)))
     (Some o).

(** [fits]: [(o->length() <= length) && (o->width() <= width)]. *)
Definition fits (n : t) (o : DObject.t) : bool :=
  Double.leb (DObject.length o) (length n)
  && Double.leb (DObject.width o) (width n).

(** [full]: [object != nullptr]. *)
Definition full (n : t) : bool :=
  match object n with Some _ => true | None => false end.

(** [leaf]: [up == nullptr]. *)
Definition leaf (n : t) : bool :=
  match up n with Some _ => false | None => true end.

Definition child (d : dir) (n : t) : option t :=
  match d with Up => up n | Right => right n end.

Fixpoint get (p : path) (n : t) : option t :=
  match p with
  | [] => Some n
  | d :: p' =>
      match child d n with
      | Some c => get p' c
      | None => None
      end
  end.

Fixpoint update (p : path) (f : t -> t) (n : t) : t :=
  match p with
  | [] => f n
  | Up :: p' =>
      mk (x n) (y n) (width n) (length n)
         (option_map (update p' f) (up n)) (right n) (object n)
  | Right :: p' =>
      mk (x n) (y n) (width n) (length n)
         (up n) (option_map (update p' f) (right n)) (object n)
  end.

Fixpoint Forall (P : t -> Prop) (n : t) : Prop :=
  match n with
  | mk _ _ _ _ u r _ =>
      P n /\
      match u with Some c => Forall P c | None => True end /\
      match r with Some c => Forall P c | None => True end
  end.

End DNode.

(** One call [o->place(x, y)], with [double] coordinates. *)
Record DPlaceCall : Type := mkDPlaceCall {
  dpc_obj : DObject.t;
  dpc_x : Double.t;
  dpc_y : Double.t
}.

(** [class Packer] on [double]. *)
Module DPacker.

(** The failures of [pack]: an item outside the input contract, and a bin
    that cannot be grown to take an item. *)
Inductive error : Type := InvalidItem | GrowthFailure.

Inductive result (A : Type) : Type :=
  | Ok (a : A)
  | Err (e : error).
Arguments Ok {A} a.
Arguments Err {A} e.

Record t : Type := mk {
  objects : list DObject.t;
  root : option DNode.t
}.

Definition new (objs : list DObject.t) : t := mk objs None.

(** Modelled from the spec: the input contract of section 6 and the
    InvalidItem condition of section 7: an item is valid when its width and
    its length are positive and finite; zero, negative, infinite and NaN
    extents are not. *)
Definition is_valid (o : DObject.t) : bool :=
  Double.positive_finite (DObject.width o)
  && Double.positive_finite (DObject.length o).

(** Modelled from the spec: the body of [Packer::insert_search] (section
    4.1), as in the exact model: depth-first; an unoccupied, childless
    region succeeds when the item fits it; otherwise the search goes into
    [right] first, then into [up]. *)
Fixpoint insert_search (node : DNode.t) (o : DObject.t) : option path :=
  match node with
  | DNode.mk _ _ _ _ u r _ =>
      if DNode.full node || negb (DNode.leaf node) then
        match
          match r with
          | Some c => option_map (cons Right) (insert_search c o)
          | None => None
          end
        with
        | Some p => Some p
        | None =>
            match u with
            | Some c => option_map (cons Up) (insert_search c o)
            | None => None
            end
        end
      else if DNode.fits node o then Some [] else None
  end.

(** Modelled from the spec: the bodies of [Packer::grow_up] and
    [Packer::grow_right] (section 4.3), as in the exact model: the new root
    covers (0,0) to (max(current_width, width), current_length + length),
    or (current_width + width, max(current_length, length)); the old root
    and a fresh region of the requested extents are its children. *)
Definition grow_up (r : DNode.t) (w l : Double.t) : DNode.t * path :=
  (DNode.new Double.zero Double.zero
     (Double.max (DNode.width r) w) (Double.add (DNode.length r) l)
     (Some (DNode.new_leaf Double.zero (DNode.length r) w l))
     (Some r),
   [Up]).

Definition grow_right (r : DNode.t) (w l : Double.t) : DNode.t * path :=
  (DNode.new Double.zero Double.zero
     (Double.add (DNode.width r) w) (Double.max (DNode.length r) l)
     (Some r)
     (Some (DNode.new_leaf (DNode.width r) Double.zero w l)),
   [Right]).

Definition skew_up (r : DNode.t) (w l : Double.t) : Double.t :=
  Double.abs (Double.sub (Double.max (DNode.width r) w)
                         (Double.add (DNode.length r) l)).

Definition skew_right (r : DNode.t) (w l : Double.t) : Double.t :=
  Double.abs (Double.sub (Double.add (DNode.width r) w)
                         (Double.max (DNode.length r) l)).

(** Modelled from the spec: the choice of the growth move (section 4.3),
    as in the exact model: the smaller |new_width - new_length| wins; on
    equal values the axis that is currently smaller grows. *)
Definition choose_growth (r : DNode.t) (w l : Double.t) : growth :=
  if Double.ltb (skew_up r w l) (skew_right r w l) then GrowUp
  else if Double.ltb (skew_right r w l) (skew_up r w l) then GrowRight
  else if Double.ltb (DNode.width r) (DNode.length r) then GrowRight
  else GrowUp.

Definition grow (r : DNode.t) (w l : Double.t) : DNode.t * path :=
  match choose_growth r w l with
  | GrowUp => grow_up r w l
  | GrowRight => grow_right r w l
  end.

(** Modelled from the spec: the placement of one item (section 4.4):
    search; on success split the region found; otherwise grow, search once
    more in the fresh region, and split it, or fail. *)
Definition pack_object (r : DNode.t) (o : DObject.t)
  : DNode.t * option error :=
  match insert_search r o with
  | Some p => (DNode.update p (fun n => DNode.add_object n o) r, None)
  | None =>
      let (r', p) := grow r (DObject.width o) (DObject.length o) in
      match
        match DNode.get p r' with
        | Some fresh => insert_search fresh o
        | None => None
        end
      with
      | Some q => (DNode.update (p ++ q) (fun n => DNode.add_object n o) r', None)
      | None => (r', Some GrowthFailure)
      end
  end.

(** Modelled from the spec: the loop of [Packer::pack] with the InvalidItem
    rule of section 7: an item outside the contract is rejected before the
    tree is touched for it, packing stops, and the tree built for the items
    before it stays. *)
Fixpoint pack_loop (r : DNode.t) (objs : list DObject.t)
  : DNode.t * option error :=
  match objs with
  | [] => (r, None)
  | o :: rest =>
      if is_valid o then
        match pack_object r o with
        | (r', None) => pack_loop r' rest
        | (r', Some e) => (r', Some e)
        end
      else (r, Some InvalidItem)
  end.

(** Modelled from the spec: the initial bin.  The spec reads the bin off
    the root (section 4.4), gives the bin (0, 0) for no item (section 8) and
    puts every root at the origin (section 4.3); the root before the first
    item is therefore the empty region at the origin. *)
Definition seed : DNode.t :=
  DNode.new_leaf Double.zero Double.zero Double.zero Double.zero.

(** Modelled from the spec: the body of [Packer::pack]. *)
Definition pack (p : t) : result (Double.t * Double.t) * t :=
  let (r, e) := pack_loop seed (objects p) in
  (match e with
   | None => Ok (DNode.width r, DNode.length r)
   | Some e => Err e
   end,
   mk (objects p) (Some r)).


(** Modelled from the spec: the body of [Packer::translate], as in the
    exact model; the two sums are double additions. *)
Fixpoint translate (node : DNode.t) (offset_x offset_y : Double.t)
  : list DPlaceCall :=
  match node with
  | DNode.mk x y _ _ u r obj =>
      match obj with
      | Some o => [mkDPlaceCall o (Double.add x offset_x) (Double.add y offset_y)]
      | None => []
      end
      ++ match u with Some c => translate c offset_x offset_y | None => [] end
      ++ match r with Some c => translate c offset_x offset_y | None => [] end
  end.

(** Modelled from the spec: the body of [Packer::arrange]. *)
Definition arrange (p : t) (offset_x offset_y : Double.t) : list DPlaceCall :=
  match root p with
  | Some r => translate r offset_x offset_y
  | None => []
  end.

End DPacker.


(** ** Trees and predicates of the binary64 model *)

(** The tree each growth move leaves once the fresh region holds the
    item. *)
Definition dgrown_up (r : DNode.t) (o : DObject.t) : DNode.t :=
  DNode.mk Double.zero Double.zero
    (Double.max (DNode.width r) (DObject.width o))
    (Double.add (DNode.length r) (DObject.length o))
    (Some (DNode.add_object
             (DNode.new_leaf Double.zero (DNode.length r)
                (DObject.width o) (DObject.length o)) o))
    (Some r) None.

Definition dgrown_right (r : DNode.t) (o : DObject.t) : DNode.t :=
  DNode.mk Double.zero Double.zero
    (Double.add (DNode.width r) (DObject.width o))
    (Double.max (DNode.length r) (DObject.length o))
    (Some r)
    (Some (DNode.add_object
             (DNode.new_leaf (DNode.width r) Double.zero
                (DObject.width o) (DObject.length o)) o))
    None.

(** Both extents of a region are non-negative (and so not NaN). *)
Definition region_nonneg (n : DNode.t) : Prop :=
  Double.nonneg (DNode.width n) /\ Double.nonneg (DNode.length n).

(** A childless region with an empty extent. *)
Definition region_closed (n : DNode.t) : Prop :=
  DNode.leaf n = true ->
  DNode.width n = Double.zero \/ DNode.length n = Double.zero.

Definition tree_ok (t : DNode.t) : Prop :=
  DNode.Forall region_nonneg t /\ DNode.Forall region_closed t.



(** An item with integer extents. *)
Definition dobj (i : nat) (w l : Z) : DObject.t :=
  DObject.mk i (Double.of_Z w) (Double.of_Z l).


(** ** Exact rectangles of the binary64 model

    The rectangle a placed item takes, in exact terms: the rationals its
    double coordinates and extents stand for. *)











(** ** Exact rectangles of a split on binary64 *)

Definition dregion (n : DNode.t) : Rect :=
  mkRect (Double.value (DNode.x n)) (Double.value (DNode.y n))
         (Double.value (DNode.width n)) (Double.value (DNode.length n)).

Definition dfootprint (n : DNode.t) (o : DObject.t) : Rect :=
  mkRect (Double.value (DNode.x n)) (Double.value (DNode.y n))
         (Double.value (DObject.width o)) (Double.value (DObject.length o)).

(** The region and the item are finite and the four operations of
    [add_object] on them are exact. *)
Definition exact_split (n : DNode.t) (o : DObject.t) : Prop :=
  Double.is_finite (DNode.x n) = true /\
  Double.is_finite (DNode.y n) = true /\
  Double.is_finite (DNode.width n) = true /\
  Double.is_finite (DNode.length n) = true /\
  Double.is_finite (DObject.width o) = true /\
  Double.is_finite (DObject.length o) = true /\
  Double.exactly (Double.add (DNode.y n) (DObject.length o))
    (Double.value (DNode.y n) + Double.value (DObject.length o)) /\
  Double.exactly (Double.sub (DNode.length n) (DObject.length o))
    (Double.value (DNode.length n) - Double.value (DObject.length o)) /\
  Double.exactly (Double.add (DNode.x n) (DObject.length o))
    (Double.value (DNode.x n) + Double.value (DObject.length o)) /\
  Double.exactly (Double.sub (DNode.width n) (DObject.width o))
    (Double.value (DNode.width n) - Double.value (DObject.width o)).

(** Unfold a child of a split on binary64 to the values of its fields. *)
Ltac dsplit_child H :=
  unfold DNode.add_object, DNode.new_leaf, DNode.new in H;
  cbn [DNode.up DNode.right] in H;
  injection H as <-;
  unfold dregion, dfootprint, rect_inside, rect_overlap, rect_disjoint;
  cbn [DNode.x DNode.y DNode.width DNode.length rx ry rw rl].

(** The values of the four operations of an exact split, as equations. *)
Ltac exact_values H :=
  destruct H as (_ & _ & _ & _ & _ & _ & [_ Ey] & [_ El] & [_ Ex] & [_ Ew]).

(** The region 10 x 10 at the origin and items of small integer extents. *)
Definition ten_by_ten : DNode.t :=
  DNode.new_leaf Double.zero Double.zero (Double.of_Z 10) (Double.of_Z 10).





(** ** Theorems on Packer::Node *)

(** C1 (as amended): placing an item in a leaf, unoccupied region that fits
    it records the item and creates exactly two childless, unoccupied
    children: [up] at (x, y + item.length) with extents
    (width, length - item.length), and [right] at (x + item.length, y) with
    extents (width - item.width, length). *)
Theorem add_object_children (n : Node.t) (o : Object)
    (Hleaf : Node.leaf n = true) (Hfree : Node.full n = false)
    (Hfits : Node.fits n o = true) :
  Node.object (Node.add_object n o) = Some o /\
  Node.up (Node.add_object n o) =
    Some (Node.mk (Node.x n) (Node.y n + olength o)
                  (Node.width n) (Node.length n - olength o) None None None) /\
  Node.right (Node.add_object n o) =
    Some (Node.mk (Node.x n + olength o) (Node.y n)
                  (Node.width n - owidth o) (Node.length n) None None None).
Proof.
  destruct n; cbn; repeat split.
Qed.

(** The region 10 x 10 at the origin and an item 4 wide and 2 long. *)
Lemma add_object_children_witness :
  let n := Node.new_leaf 0 0 10 10 in
  let o := mkObject 0 4 2 in
  Node.object (Node.add_object n o) = Some o /\
  Node.up (Node.add_object n o) =
    Some (Node.mk (Node.x n) (Node.y n + olength o)
                  (Node.width n) (Node.length n - olength o) None None None) /\
  Node.right (Node.add_object n o) =
    Some (Node.mk (Node.x n + olength o) (Node.y n)
                  (Node.width n - owidth o) (Node.length n) None None None).
Proof.
  intros n o. apply (add_object_children n o); reflexivity.
Defined.

(** C1 as stated fails: for that region and item the [right] child is 6
    wide (10 - item.width), not 8 (10 - item.length), although the region is
    a leaf, unoccupied, and fits the item. *)
Lemma add_object_right_width_counterexample :
  let n := Node.new_leaf 0 0 10 10 in
  let o := mkObject 0 4 2 in
  Node.leaf n = true /\ Node.full n = false /\ Node.fits n o = true /\
  ~ (Node.right (Node.add_object n o) =
       Some (Node.mk (Node.x n + olength o) (Node.y n)
                     (Node.width n - olength o) (Node.length n) None None None)) /\
  (forall r, Node.right (Node.add_object n o) = Some r ->
             Node.width r == 6 /\ ~ Node.width r == Node.width n - olength o).
Proof.
  cbv zeta. repeat split; try reflexivity.
  - intros H. discriminate H.
  - injection H as <-. reflexivity.
  - injection H as <-. intros E. vm_compute in E. discriminate E.
Qed.

(** ** Induction on trees and the nodes of a tree *)

Lemma Node_t_ind (P : Node.t -> Prop) :
  (forall x y w l u r obj,
      match u with Some c => P c | None => True end ->
      match r with Some c => P c | None => True end ->
      P (Node.mk x y w l u r obj)) ->
  forall n, P n.
Proof.
  intros H. fix IH 1. intros [x y w l u r obj]. apply H.
  - destruct u; [apply IH | exact I].
  - destruct r; [apply IH | exact I].
Qed.

Lemma Node_Forall_here (P : Node.t -> Prop) (n : Node.t) :
  Node.Forall P n -> P n.
Proof. destruct n; cbn; tauto. Qed.

Lemma Node_Forall_child (P : Node.t -> Prop) (d : dir) (n c : Node.t) :
  Node.Forall P n -> Node.child d n = Some c -> Node.Forall P c.
Proof.
  destruct n as [x y w l u r obj], d; cbn; intros (_ & Hu & Hr) E;
    subst; assumption.
Qed.

Lemma Node_Forall_get (P : Node.t -> Prop) (p : path) :
  forall t n, Node.Forall P t -> Node.get p t = Some n -> Node.Forall P n.
Proof.
  induction p as [|d p IH]; cbn; intros t n Ht E.
  - now injection E as <-.
  - destruct (Node.child d t) as [c|] eqn:Ec; [|discriminate].
    eapply IH; [|exact E]. eapply Node_Forall_child; eassumption.
Qed.

Lemma Node_Forall_impl (P Q : Node.t -> Prop) :
  (forall n, P n -> Q n) -> forall t, Node.Forall P t -> Node.Forall Q t.
Proof.
  intros HPQ t. induction t as [x y w l u r obj IHu IHr] using Node_t_ind.
  cbn. intros (H & Hu & Hr). split; [now apply HPQ|].
  split; [destruct u | destruct r]; auto.
Qed.

(** ** Shape of the tree: children in pairs, occupied regions split *)

Lemma add_object_wf (n : Node.t) (o : Object) : wf (Node.add_object n o).
Proof.
  unfold wf, node_ok, paired, split_if_full. destruct n; cbn.
  repeat split; try tauto; try discriminate; intros _; discriminate.
Qed.

Lemma node_ok_fields x y w l u r obj u' r' :
  (u = None <-> u' = None) -> (r = None <-> r' = None) ->
  node_ok (Node.mk x y w l u r obj) -> node_ok (Node.mk x y w l u' r' obj).
Proof.
  unfold node_ok, paired, split_if_full; cbn. intros Hu Hr [Hp Hs].
  split; [tauto|]. intros Hf. specialize (Hs Hf). tauto.
Qed.

Lemma update_wf (f : Node.t -> Node.t) (p : path) :
  (forall n, wf (f n)) -> forall t, wf t -> wf (Node.update p f t).
Proof.
  intros Hf. induction p as [|d p IH]; intros t Ht; [apply Hf|].
  destruct t as [x y w l u r obj]. unfold wf in *. cbn in Ht.
  destruct Ht as (Hn & Hu & Hr). destruct d; cbn.
  - split; [|split; [|exact Hr]].
    + revert Hn. apply node_ok_fields; [|tauto].
      destruct u; cbn; split; congruence.
    + destruct u; cbn; [apply IH; exact Hu | exact I].
  - split; [|split; [exact Hu|]].
    + revert Hn. apply node_ok_fields; [tauto|].
      destruct r; cbn; split; congruence.
    + destruct r; cbn; [apply IH; exact Hr | exact I].
Qed.

Lemma step_wf (t t' : Node.t) : step t t' -> wf t -> wf t'.
Proof.
  intros [t0 o found _ | t0 p o | t0 w l | t0 w l] Ht; [exact Ht| | |].
  - apply update_wf; [intros n; apply add_object_wf | exact Ht].
  - cbn. split; [|split; [cbn; unfold node_ok, paired, split_if_full; cbn|exact Ht]].
    + unfold node_ok, paired, split_if_full; cbn.
      repeat split; try discriminate.
    + repeat split; try tauto; discriminate.
  - cbn. split; [|split; [exact Ht|cbn; unfold node_ok, paired, split_if_full; cbn]].
    + unfold node_ok, paired, split_if_full; cbn.
      repeat split; try discriminate.
    + repeat split; try tauto; discriminate.
Qed.

Lemma reachable_wf (t : Node.t) : reachable t -> wf t.
Proof.
  induction 1 as [x y w l | t t' _ IH Hs].
  - cbn. unfold node_ok, paired, split_if_full; cbn.
    repeat split; try tauto; discriminate.
  - eapply step_wf; eassumption.
Qed.

Lemma reachable_node_ok (t : Node.t) (p : path) (n : Node.t) :
  reachable t -> Node.get p t = Some n -> node_ok n.
Proof.
  intros Hr E. apply Node_Forall_here.
  eapply Node_Forall_get; [apply reachable_wf; exact Hr | exact E].
Qed.

(** C3: in every tree reached by searches, splits and growth moves, a region
    that holds an item has both children, and a region with no children
    holds no item. *)
Theorem occupied_region_is_split (t : Node.t) (p : path) (n : Node.t)
    (Hreach : reachable t) (Hnode : Node.get p t = Some n) :
  (Node.full n = true -> Node.up n <> None /\ Node.right n <> None) /\
  (Node.up n = None -> Node.right n = None -> Node.full n = false).
Proof.
  destruct (reachable_node_ok t p n Hreach Hnode) as [_ Hs].
  split; [exact Hs|]. intros Hu _.
  destruct (Node.full n) eqn:Hf; [|reflexivity].
  destruct (Hs Hf) as [Hu' _]. contradiction.
Qed.

(** C10: in every reachable tree the [up] child of a node is null exactly
    when its [right] child is, so that [leaf], which looks at [up] only,
    holds exactly for the nodes with no child at all. *)
Theorem children_come_in_pairs (t : Node.t) (p : path) (n : Node.t)
    (Hreach : reachable t) (Hnode : Node.get p t = Some n) :
  (Node.up n = None <-> Node.right n = None) /\
  (Node.leaf n = true <-> Node.up n = None /\ Node.right n = None).
Proof.
  destruct (reachable_node_ok t p n Hreach Hnode) as [Hp _].
  split; [exact Hp|]. unfold paired in Hp. unfold Node.leaf.
  destruct (Node.up n); split; try tauto; try discriminate.
  intros [E _]; discriminate E.
Qed.

Lemma one_item_tree_reachable : reachable one_item_tree.
Proof.
  unfold one_item_tree.
  eapply reach_step; [|apply step_place].
  eapply reach_step; [|apply step_grow_up].
  apply reach_seed.
Defined.

Lemma occupied_region_is_split_witness :
  exists n, Node.get [Up] one_item_tree = Some n /\
    (Node.full n = true -> Node.up n <> None /\ Node.right n <> None) /\
    (Node.up n = None -> Node.right n = None -> Node.full n = false).
Proof.
  eexists. split; [reflexivity|].
  apply (occupied_region_is_split one_item_tree [Up]);
    [apply one_item_tree_reachable | reflexivity].
Defined.

Lemma children_come_in_pairs_witness :
  exists n, Node.get [Up; Right] one_item_tree = Some n /\
    (Node.up n = None <-> Node.right n = None) /\
    (Node.leaf n = true <-> Node.up n = None /\ Node.right n = None).
Proof.
  eexists. split; [reflexivity|].
  apply (children_come_in_pairs one_item_tree [Up; Right]);
    [apply one_item_tree_reachable | reflexivity].
Defined.

(** ** Extents *)

Lemma fits_iff (n : Node.t) (o : Object) :
  Node.fits n o = true <->
  olength o <= Node.length n /\ owidth o <= Node.width n.
Proof.
  unfold Node.fits. rewrite andb_true_iff, !Qle_bool_iff. tauto.
Qed.

(** ** Growth *)



Lemma fresh_fits (x y : Q) (o : Object) :
  Node.fits (Node.new_leaf x y (owidth o) (olength o)) o = true.
Proof.
  apply fits_iff. cbn. split; apply Qle_refl.
Qed.

Lemma pack_object_found (r : Node.t) (o : Object) (p : path) :
  Packer.insert_search r o = Some p ->
  Packer.pack_object r o =
    (Node.update p (fun n => Node.add_object n o) r, None).
Proof.
  unfold Packer.pack_object. now intros ->.
Qed.

Lemma pack_object_grows (r : Node.t) (o : Object) :
  Packer.insert_search r o = None ->
  Packer.pack_object r o =
    (match Packer.choose_growth r (owidth o) (olength o) with
     | GrowUp => grown_up r o
     | GrowRight => grown_right r o
     end, None).
Proof.
  unfold Packer.pack_object, Packer.grow. intros ->.
  destruct (Packer.choose_growth r (owidth o) (olength o)).
  - unfold Packer.grow_up. cbn [Node.get Node.child Node.up Node.new].
    unfold Packer.insert_search.
    cbn [Node.new_leaf Node.new Node.full Node.leaf Node.object Node.up orb negb].
    change (Node.mk 0 (Node.length r) (owidth o) (olength o) None None None)
      with (Node.new_leaf 0 (Node.length r) (owidth o) (olength o)).
    rewrite fresh_fits. reflexivity.
  - unfold Packer.grow_right. cbn [Node.get Node.child Node.right Node.new].
    unfold Packer.insert_search.
    cbn [Node.new_leaf Node.new Node.full Node.leaf Node.object Node.up orb negb].
    change (Node.mk (Node.width r) 0 (owidth o) (olength o) None None None)
      with (Node.new_leaf (Node.width r) 0 (owidth o) (olength o)).
    rewrite fresh_fits. reflexivity.
Qed.



(** ** The trees [pack] builds are reachable *)

Lemma grown_up_update (r : Node.t) (o : Object) :
  grown_up r o =
  Node.update [Up] (fun n => Node.add_object n o)
    (fst (Packer.grow_up r (owidth o) (olength o))).
Proof. reflexivity. Qed.

Lemma grown_right_update (r : Node.t) (o : Object) :
  grown_right r o =
  Node.update [Right] (fun n => Node.add_object n o)
    (fst (Packer.grow_right r (owidth o) (olength o))).
Proof. reflexivity. Qed.

Lemma pack_object_no_error (r : Node.t) (o : Object) :
  snd (Packer.pack_object r o) = None.
Proof.
  destruct (Packer.insert_search r o) as [p|] eqn:E.
  - now rewrite (pack_object_found r o p E).
  - now rewrite (pack_object_grows r o E).
Qed.

Lemma pack_object_reachable (r : Node.t) (o : Object) :
  reachable r -> reachable (fst (Packer.pack_object r o)).
Proof.
  intros Hr. destruct (Packer.insert_search r o) as [p|] eqn:E.
  - rewrite (pack_object_found r o p E). cbn [fst].
    eapply reach_step; [|apply step_place].
    eapply reach_step; [exact Hr | exact (step_search r o _ E)].
  - rewrite (pack_object_grows r o E). cbn [fst].
    assert (Hs : reachable r) by
      (eapply reach_step; [exact Hr | exact (step_search r o _ E)]).
    destruct (Packer.choose_growth r (owidth o) (olength o)).
    + rewrite grown_up_update.
      eapply reach_step; [|apply step_place].
      eapply reach_step; [exact Hs | apply step_grow_up].
    + rewrite grown_right_update.
      eapply reach_step; [|apply step_place].
      eapply reach_step; [exact Hs | apply step_grow_right].
Qed.

Lemma pack_loop_cons (r : Node.t) (o : Object) (objs : list Object) :
  Packer.pack_loop r (o :: objs) =
  Packer.pack_loop (fst (Packer.pack_object r o)) objs.
Proof.
  cbn [Packer.pack_loop].
  pose proof (pack_object_no_error r o) as He.
  destruct (Packer.pack_object r o) as [r' e]. cbn in He. now subst e.
Qed.

Lemma pack_loop_reachable (objs : list Object) :
  forall r, reachable r -> reachable (fst (Packer.pack_loop r objs)).
Proof.
  induction objs as [|o objs IH]; intros r Hr; [exact Hr|].
  rewrite pack_loop_cons. apply IH. now apply pack_object_reachable.
Qed.

Lemma seed_reachable : reachable Packer.seed.
Proof. apply reach_seed. Qed.

(** ** The search *)

Lemma insert_search_sound (o : Object) :
  forall t p, Packer.insert_search t o = Some p ->
  exists n, Node.get p t = Some n /\ Node.full n = false /\
            Node.leaf n = true /\ Node.fits n o = true.
Proof.
  induction t as [x y w l u r obj IHu IHr] using Node_t_ind. intros p.
  cbn [Packer.insert_search].
  destruct (Node.full (Node.mk x y w l u r obj)
            || negb (Node.leaf (Node.mk x y w l u r obj))) eqn:Ein.
  - destruct r as [c|].
    + destruct (Packer.insert_search c o) as [q|] eqn:Ec; cbn [option_map].
      * intros [= <-]. destruct (IHr q eq_refl) as (n & Hg & H).
        exists n. split; [exact Hg | exact H].
      * destruct u as [c'|]; [|discriminate].
        destruct (Packer.insert_search c' o) as [q|] eqn:Ec'; [|discriminate].
        intros [= <-]. destruct (IHu q eq_refl) as (n & Hg & H).
        exists n. split; [exact Hg | exact H].
    + destruct u as [c'|]; [|discriminate].
      destruct (Packer.insert_search c' o) as [q|] eqn:Ec'; [|discriminate].
      intros [= <-]. destruct (IHu q eq_refl) as (n & Hg & H).
      exists n. split; [exact Hg | exact H].
  - apply orb_false_iff in Ein. destruct Ein as [Hfull Hleaf].
    apply negb_false_iff in Hleaf.
    destruct (Node.fits (Node.mk x y w l u r obj) o) eqn:Hfits; [|discriminate].
    intros [= <-]. eexists. split; [reflexivity|]. auto.
Qed.

(** ** The walk of [arrange] *)

Lemma translate_unfold (n : Node.t) (ox oy : Q) :
  Packer.translate n ox oy =
  match Node.object n with
  | Some o => [mkPlaceCall o (Node.x n + ox) (Node.y n + oy)]
  | None => []
  end
  ++ match Node.up n with Some c => Packer.translate c ox oy | None => [] end
  ++ match Node.right n with Some c => Packer.translate c ox oy | None => [] end.
Proof. destruct n; reflexivity. Qed.

Lemma translate_free_leaf (n : Node.t) (ox oy : Q) :
  node_ok n -> Node.leaf n = true -> Node.full n = false ->
  Packer.translate n ox oy = [].
Proof.
  intros [Hp _] Hleaf Hfull. rewrite translate_unfold.
  unfold Node.leaf in Hleaf. unfold Node.full in Hfull. unfold paired in Hp.
  destruct (Node.up n); [discriminate|].
  destruct (Node.object n); [discriminate|].
  destruct (Node.right n); [|reflexivity].
  destruct Hp as [Hp _]. specialize (Hp eq_refl). discriminate.
Qed.

Lemma translate_add_object (n : Node.t) (o : Object) (ox oy : Q) :
  Packer.translate (Node.add_object n o) ox oy =
  [mkPlaceCall o (Node.x n + ox) (Node.y n + oy)].
Proof. destruct n; reflexivity. Qed.

(** Splitting a free leaf adds one call, for the item, at the leaf's
    origin, and keeps every other call. *)
Lemma translate_split (o : Object) (ox oy : Q) (p : path) :
  forall t n, wf t -> Node.get p t = Some n ->
  Node.leaf n = true -> Node.full n = false ->
  Permutation
    (Packer.translate (Node.update p (fun m => Node.add_object m o) t) ox oy)
    (mkPlaceCall o (Node.x n + ox) (Node.y n + oy) :: Packer.translate t ox oy).
Proof.
  induction p as [|d p IH]; intros t n Hwf Hget Hleaf Hfull.
  - injection Hget as ->. cbn [Node.update].
    rewrite translate_add_object.
    rewrite (translate_free_leaf n ox oy (Node_Forall_here _ _ Hwf) Hleaf Hfull).
    apply Permutation_refl.
  - cbn [Node.get] in Hget.
    destruct (Node.child d t) as [c|] eqn:Ec; [|discriminate].
    assert (Hc : wf c) by (eapply Node_Forall_child; eassumption).
    specialize (IH c n Hc Hget Hleaf Hfull).
    destruct t as [x y w l u r obj].
    destruct d; cbn [Node.child Node.up Node.right] in Ec; subst;
      cbn [Node.update Node.x Node.y Node.width Node.length Node.up
           Node.right Node.object option_map];
      rewrite !translate_unfold with (n := Node.mk _ _ _ _ _ _ _);
      cbn [Node.object Node.up Node.right Node.x Node.y].
    + rewrite IH. cbn [app]. symmetry. apply Permutation_middle.
    + rewrite IH. rewrite app_assoc. symmetry.
      rewrite app_assoc. apply Permutation_middle.
Qed.

Lemma translate_grown_up (r : Node.t) (o : Object) (ox oy : Q) :
  Packer.translate (grown_up r o) ox oy =
  mkPlaceCall o (0 + ox) (Node.length r + oy) :: Packer.translate r ox oy.
Proof. reflexivity. Qed.

Lemma translate_grown_right (r : Node.t) (o : Object) (ox oy : Q) :
  Packer.translate (grown_right r o) ox oy =
  Packer.translate r ox oy ++ [mkPlaceCall o (Node.width r + ox) (0 + oy)].
Proof. reflexivity. Qed.

Lemma pack_object_calls (r : Node.t) (o : Object) (ox oy : Q) :
  wf r ->
  Permutation
    (map pc_obj (Packer.translate (fst (Packer.pack_object r o)) ox oy))
    (o :: map pc_obj (Packer.translate r ox oy)).
Proof.
  intros Hwf. destruct (Packer.insert_search r o) as [p|] eqn:E.
  - rewrite (pack_object_found r o p E). cbn [fst].
    destruct (insert_search_sound o r p E) as (n & Hg & Hfull & Hleaf & _).
    rewrite (translate_split o ox oy p r n Hwf Hg Hleaf Hfull). reflexivity.
  - rewrite (pack_object_grows r o E). cbn [fst].
    destruct (Packer.choose_growth r (owidth o) (olength o)).
    + rewrite translate_grown_up. reflexivity.
    + rewrite translate_grown_right, map_app. cbn [map pc_obj].
      symmetry. apply Permutation_cons_append.
Qed.

Lemma pack_loop_calls (ox oy : Q) (objs : list Object) :
  forall r, reachable r ->
  Permutation
    (map pc_obj (Packer.translate (fst (Packer.pack_loop r objs)) ox oy))
    (objs ++ map pc_obj (Packer.translate r ox oy)).
Proof.
  induction objs as [|o objs IH]; intros r Hr; [reflexivity|].
  rewrite pack_loop_cons.
  rewrite (IH _ (pack_object_reachable r o Hr)).
  rewrite (pack_object_calls r o ox oy (reachable_wf r Hr)).
  cbn [app]. symmetry. apply Permutation_middle.
Qed.

(** Every call comes from an occupied region of the tree. *)
Lemma translate_in (ox oy : Q) (c : PlaceCall) :
  forall t, In c (Packer.translate t ox oy) ->
  exists p n, Node.get p t = Some n /\ Node.object n = Some (pc_obj c) /\
              pc_x c = Node.x n + ox /\ pc_y c = Node.y n + oy.
Proof.
  induction t as [x y w l u r obj IHu IHr] using Node_t_ind.
  rewrite translate_unfold. cbn [Node.object Node.up Node.right Node.x Node.y].
  rewrite !in_app_iff. intros [H | [H | H]].
  - destruct obj as [o|]; [|contradiction]. destruct H as [<- | []].
    exists [], (Node.mk x y w l u r (Some o)). repeat split.
  - destruct u as [cu|]; [|contradiction].
    destruct (IHu H) as (p & n & Hg & Hn). exists (Up :: p), n.
    split; [exact Hg | exact Hn].
  - destruct r as [cr|]; [|contradiction].
    destruct (IHr H) as (p & n & Hg & Hn). exists (Right :: p), n.
    split; [exact Hg | exact Hn].
Qed.

Lemma pack_unfold (p : Packer.t) :
  Packer.pack p =
  (match snd (Packer.pack_loop Packer.seed (Packer.objects p)) with
   | None =>
       Ok (Node.width (fst (Packer.pack_loop Packer.seed (Packer.objects p))),
           Node.length (fst (Packer.pack_loop Packer.seed (Packer.objects p))))
   | Some e => Err e
   end,
   Packer.mk (Packer.objects p)
     (Some (fst (Packer.pack_loop Packer.seed (Packer.objects p))))).
Proof.
  unfold Packer.pack.
  now destruct (Packer.pack_loop Packer.seed (Packer.objects p)).
Qed.

Lemma NoDup_map_unique {A B : Type} (g : A -> B) (l : list A) :
  NoDup (map g l) ->
  forall a b, In a l -> In b l -> g a = g b -> a = b.
Proof.
  induction l as [|c l IH]; cbn; intros Hnd a b Ha Hb E; [contradiction|].
  inversion Hnd as [|? ? Hc Hl]; subst.
  destruct Ha as [<- | Ha], Hb as [<- | Hb]; auto.
  - exfalso. apply Hc. rewrite E. now apply in_map.
  - exfalso. apply Hc. rewrite <- E. now apply in_map.
Qed.

(** C7: after a successful [pack], [arrange] makes one [place] call for
    each item of the sequence and no other (the objects of the calls are a
    rearrangement of the sequence; an item that occurs once in it gets
    exactly one call), and each call carries the origin of an occupied
    region that holds its item, moved by the offsets.  [pack] itself returns
    a bin and a tree, and makes no call. *)
Theorem arrange_places_each_item_once (objs : list Object)
    (offset_x offset_y : Q) (bin : Q * Q) (packed : Packer.t)
    (Hpack : Packer.pack (Packer.new objs) = (Ok bin, packed)) :
  let calls := Packer.arrange packed offset_x offset_y in
  Permutation (map pc_obj calls) objs /\
  (NoDup objs -> forall o, In o objs ->
     exists c, In c calls /\ pc_obj c = o /\
               forall c', In c' calls -> pc_obj c' = o -> c' = c) /\
  forall c, In c calls ->
    exists t p n,
      Packer.root packed = Some t /\ Node.get p t = Some n /\
      Node.object n = Some (pc_obj c) /\
      pc_x c = Node.x n + offset_x /\ pc_y c = Node.y n + offset_y.
Proof.
  rewrite pack_unfold in Hpack. injection Hpack as _ <-.
  cbn [Packer.arrange Packer.root Packer.objects Packer.new].
  assert (Hperm : Permutation
            (map pc_obj (Packer.translate (fst (Packer.pack_loop Packer.seed objs))
                           offset_x offset_y)) objs).
  { rewrite (pack_loop_calls offset_x offset_y objs _ seed_reachable).
    cbn. now rewrite app_nil_r. }
  split; [exact Hperm|]. split.
  - intros Hnd o Ho.
    assert (Hin : In o (map pc_obj (Packer.translate
                     (fst (Packer.pack_loop Packer.seed objs)) offset_x offset_y)))
      by (eapply Permutation_in; [symmetry; exact Hperm | exact Ho]).
    apply in_map_iff in Hin. destruct Hin as (c & Hc & Hcin).
    exists c. split; [exact Hcin|]. split; [exact Hc|].
    intros c' Hc'in Hc'.
    apply (NoDup_map_unique pc_obj _
             (Permutation_NoDup (Permutation_sym Hperm) Hnd) c' c Hc'in Hcin).
    now rewrite Hc, Hc'.
  - intros c Hc. destruct (translate_in _ _ _ _ Hc) as (p & n & H).
    eexists _, p, n. split; [reflexivity | exact H].
Qed.

Lemma arrange_places_each_item_once_witness :
  let objs := [mkObject 0 4 6; mkObject 1 4 6] in
  let packed := snd (Packer.pack (Packer.new objs)) in
  Permutation (map pc_obj (Packer.arrange packed 100 200)) objs.
Proof.
  intros objs packed.
  exact (proj1 (arrange_places_each_item_once objs 100 200 (8, 6) packed
                  eq_refl)).
Defined.

(** ** Independence from object identities *)

Section Relabelling.

Variable f : Object -> Object.
Hypothesis Hf : keeps_extents f.

Lemma relabel_fields (n : Node.t) :
  Node.x (relabel_tree f n) = Node.x n /\
  Node.y (relabel_tree f n) = Node.y n /\
  Node.width (relabel_tree f n) = Node.width n /\
  Node.length (relabel_tree f n) = Node.length n.
Proof. destruct n; cbn; auto. Qed.

Lemma relabel_tests (n : Node.t) (o : Object) :
  Node.full (relabel_tree f n) = Node.full n /\
  Node.leaf (relabel_tree f n) = Node.leaf n /\
  Node.fits (relabel_tree f n) (f o) = Node.fits n o.
Proof.
  destruct (Hf o) as [Hw Hl].
  destruct n as [x y w l u r obj]; unfold Node.fits, Node.full, Node.leaf;
    node_simpl.
  rewrite Hw, Hl. destruct obj, u; auto.
Qed.

Lemma relabel_add_object (n : Node.t) (o : Object) :
  relabel_tree f (Node.add_object n o) =
  Node.add_object (relabel_tree f n) (f o).
Proof.
  destruct (Hf o) as [Hw Hl]. destruct n; node_simpl. now rewrite Hw, Hl.
Qed.

Lemma relabel_insert_search (o : Object) :
  forall t, Packer.insert_search (relabel_tree f t) (f o) =
            Packer.insert_search t o.
Proof.
  induction t as [x y w l u r obj IHu IHr] using Node_t_ind.
  pose proof (relabel_tests (Node.mk x y w l u r obj) o) as (Hfull & Hleaf & Hfits).
  cbn [relabel_tree] in *. cbn [Packer.insert_search].
  rewrite Hfull, Hleaf, Hfits.
  destruct r as [cr|], u as [cu|]; try rewrite IHr; try rewrite IHu;
    reflexivity.
Qed.

Lemma relabel_update (o : Object) (p : path) :
  forall t,
    relabel_tree f (Node.update p (fun n => Node.add_object n o) t) =
    Node.update p (fun n => Node.add_object n (f o)) (relabel_tree f t).
Proof.
  induction p as [|d p IH]; intros t.
  - apply relabel_add_object.
  - destruct t as [x y w l u r obj].
    destruct d; node_simpl; [destruct u | destruct r]; node_simpl;
      now rewrite ?IH.
Qed.

Lemma relabel_choose_growth (r : Node.t) (w l : Q) :
  Packer.choose_growth (relabel_tree f r) w l = Packer.choose_growth r w l.
Proof.
  destruct (relabel_fields r) as (_ & _ & Hw & Hl).
  unfold Packer.choose_growth, Packer.skew_up, Packer.skew_right.
  now rewrite Hw, Hl.
Qed.

Lemma relabel_grown_up (r : Node.t) (o : Object) :
  relabel_tree f (grown_up r o) = grown_up (relabel_tree f r) (f o).
Proof.
  destruct (Hf o) as [Hw Hl].
  destruct (relabel_fields r) as (_ & _ & Hrw & Hrl).
  unfold grown_up. node_simpl. now rewrite Hw, Hl, Hrw, Hrl.
Qed.

Lemma relabel_grown_right (r : Node.t) (o : Object) :
  relabel_tree f (grown_right r o) = grown_right (relabel_tree f r) (f o).
Proof.
  destruct (Hf o) as [Hw Hl].
  destruct (relabel_fields r) as (_ & _ & Hrw & Hrl).
  unfold grown_right. node_simpl. now rewrite Hw, Hl, Hrw, Hrl.
Qed.

Lemma relabel_pack_object (r : Node.t) (o : Object) :
  fst (Packer.pack_object (relabel_tree f r) (f o)) =
  relabel_tree f (fst (Packer.pack_object r o)).
Proof.
  destruct (Packer.insert_search r o) as [p|] eqn:E.
  - rewrite (pack_object_found r o p E).
    rewrite (pack_object_found (relabel_tree f r) (f o) p)
      by now rewrite relabel_insert_search.
    cbn [fst]. now rewrite relabel_update.
  - rewrite (pack_object_grows r o E).
    rewrite (pack_object_grows (relabel_tree f r) (f o))
      by now rewrite relabel_insert_search.
    destruct (Hf o) as [Hw Hl]. rewrite Hw, Hl, relabel_choose_growth.
    cbn [fst]. destruct (Packer.choose_growth r (owidth o) (olength o));
      [now rewrite relabel_grown_up | now rewrite relabel_grown_right].
Qed.

Lemma relabel_pack_loop (objs : list Object) :
  forall r,
    fst (Packer.pack_loop (relabel_tree f r) (map f objs)) =
    relabel_tree f (fst (Packer.pack_loop r objs)).
Proof.
  induction objs as [|o objs IH]; intros r; [reflexivity|].
  cbn [map]. rewrite !pack_loop_cons, relabel_pack_object. apply IH.
Qed.

Lemma relabel_translate (ox oy : Q) :
  forall t, Packer.translate (relabel_tree f t) ox oy =
            map (relabel_call f) (Packer.translate t ox oy).
Proof.
  induction t as [x y w l u r obj IHu IHr] using Node_t_ind.
  cbn [relabel_tree]. rewrite !translate_unfold with (n := Node.mk _ _ _ _ _ _ _).
  cbn [Node.object Node.up Node.right Node.x Node.y].
  rewrite !map_app. f_equal; [now destruct obj|].
  f_equal; [destruct u | destruct r]; auto.
Qed.

End Relabelling.

Lemma pack_loop_no_error (objs : list Object) :
  forall r, snd (Packer.pack_loop r objs) = None.
Proof.
  induction objs as [|o objs IH]; intros r; [reflexivity|].
  rewrite pack_loop_cons. apply IH.
Qed.

(** C8: two runs of [pack] and [arrange] on the same ordered sequence give
    the same bin and the same calls, whatever tree each packer held before;
    and when the second run sees the same items under other identities
    (a relabelling that keeps the extents), the bin is the same and every
    call is the first run's call, on the relabelled item, at the same
    coordinates. *)
Theorem pack_arrange_deterministic (p1 p2 : Packer.t)
    (f : Object -> Object) (offset_x offset_y : Q)
    (Hf : keeps_extents f)
    (Hobjs : Packer.objects p2 = map f (Packer.objects p1)) :
  fst (Packer.pack p2) = fst (Packer.pack p1) /\
  Packer.arrange (snd (Packer.pack p2)) offset_x offset_y =
    map (relabel_call f) (Packer.arrange (snd (Packer.pack p1)) offset_x offset_y).
Proof.
  rewrite !pack_unfold. cbn [fst snd Packer.arrange Packer.root].
  rewrite !pack_loop_no_error, Hobjs.
  rewrite (relabel_pack_loop f Hf (Packer.objects p1) Packer.seed
           : fst (Packer.pack_loop Packer.seed (map f (Packer.objects p1))) = _).
  destruct (relabel_fields f (fst (Packer.pack_loop Packer.seed (Packer.objects p1))))
    as (_ & _ & Hw & Hl).
  rewrite Hw, Hl. split; [reflexivity|]. apply relabel_translate.
Qed.

Lemma pack_arrange_deterministic_witness :
  let p1 := Packer.new [mkObject 0 4 6; mkObject 1 4 6] in
  let p2 := Packer.mk [mkObject 100 4 6; mkObject 101 4 6] (Some one_item_tree) in
  fst (Packer.pack p2) = fst (Packer.pack p1) /\
  Packer.arrange (snd (Packer.pack p2)) 100 200 =
    map (relabel_call readdress) (Packer.arrange (snd (Packer.pack p1)) 100 200).
Proof.
  intros p1 p2.
  apply (pack_arrange_deterministic p1 p2 readdress 100 200);
    [intros o; split; reflexivity | reflexivity].
Defined.

(** ** Ordered pairs of a list *)



(** ** Geometry of a split

    What [fits] and [add_object] do to the rectangles, read off the two
    functions. *)

(** X1: a second [add_object] on a node replaces the first: the item and
    both children of the first call are dropped, and the result is the one
    the second call gives on the original node.  The node's own rectangle is
    untouched, so [fits] answers after a split as it did before. *)
Theorem add_object_overwrites (n : Node.t) (o1 o2 : Object) :
  Node.add_object (Node.add_object n o1) o2 = Node.add_object n o2 /\
  region (Node.add_object n o1) = region n /\
  forall o, Node.fits (Node.add_object n o1) o = Node.fits n o.
Proof.
  destruct n as [x y w l u r obj]. repeat split.
Qed.

(** X2: [fits] is monotone: an item that fits a region fits every region at
    least as wide and as long, and every item no wider and no longer fits
    where it does. *)
Theorem fits_monotone (n n' : Node.t) (o o' : Object)
    (Hfits : Node.fits n o = true)
    (Hw : Node.width n <= Node.width n') (Hl : Node.length n <= Node.length n')
    (Hw' : owidth o' <= owidth o) (Hl' : olength o' <= olength o) :
  Node.fits n' o' = true.
Proof.
  apply fits_iff in Hfits. apply fits_iff. destruct Hfits. split; lra.
Qed.

Lemma fits_monotone_witness :
  Node.fits (Node.new_leaf 3 7 12 11) (mkObject 1 3 2) = true.
Proof.
  apply (fits_monotone (Node.new_leaf 0 0 10 10) (Node.new_leaf 3 7 12 11)
           (mkObject 0 4 2) (mkObject 1 3 2));
    [reflexivity | discriminate | discriminate | discriminate | discriminate].
Defined.

(** X3: [fits] holds exactly when the item's footprint, laid from the
    region's origin, lies within the region's rectangle; an item with the
    region's own extents fits. *)
Theorem fits_iff_footprint_inside (n : Node.t) (o : Object) :
  (Node.fits n o = true <-> rect_inside (footprint n o) (region n)) /\
  (owidth o == Node.width n -> olength o == Node.length n ->
   Node.fits n o = true).
Proof.
  rewrite fits_iff. unfold rect_inside, footprint, region. cbn [rx ry rw rl].
  split; [split|].
  - intros [Hl Hw]. repeat split; lra.
  - intros (_ & Hw & _ & Hl). split; lra.
  - intros Hw Hl. split; lra.
Qed.

(** X5: a child of a split never takes an item the region itself would not
    take: for a placed item of non-negative extents, whatever fits the [up]
    or the [right] child fits the region. *)
Theorem child_fit_implies_parent_fit (n : Node.t) (o : Object) (c : Node.t)
    (o' : Object)
    (Hw : 0 <= owidth o) (Hl : 0 <= olength o)
    (Hc : Node.up (Node.add_object n o) = Some c \/
          Node.right (Node.add_object n o) = Some c)
    (Hfits : Node.fits c o' = true) :
  Node.fits n o' = true.
Proof.
  apply fits_iff in Hfits. apply fits_iff.
  destruct Hc as [Hc | Hc]; split_child Hc;
    cbn [Node.width Node.length] in Hfits; destruct Hfits; split; lra.
Qed.

Lemma child_fit_implies_parent_fit_witness :
  Node.fits (Node.new_leaf 0 0 10 10) (mkObject 1 6 8) = true.
Proof.
  apply (child_fit_implies_parent_fit (Node.new_leaf 0 0 10 10)
           (mkObject 0 4 2) (Node.new_leaf 0 (0 + 2) 10 (10 - 2))
           (mkObject 1 6 8));
    [discriminate | discriminate | left; reflexivity | reflexivity].
Defined.

(** X6: an item that fills the region's length closes the [up] child, and
    one that fills its width closes the [right] child: no item of positive
    extents fits the child. *)
Theorem filled_side_closes_child (n : Node.t) (o : Object) (o' : Object)
    (Hpos : valid o') :
  (olength o == Node.length n ->
   forall u, Node.up (Node.add_object n o) = Some u -> Node.fits u o' = false) /\
  (owidth o == Node.width n ->
   forall r, Node.right (Node.add_object n o) = Some r -> Node.fits r o' = false).
Proof.
  destruct Hpos as [Hw' Hl'].
  split; intros E c Hc; destruct (Node.fits c o') eqn:Hfits; try reflexivity;
    apply fits_iff in Hfits; split_child Hc;
    cbn [Node.width Node.length] in Hfits; destruct Hfits; lra.
Qed.

Lemma filled_side_closes_child_witness :
  Node.fits (Node.new_leaf 0 (0 + 5) 10 (5 - 5)) (mkObject 1 1 1) = false /\
  Node.fits (Node.new_leaf (0 + 5) 0 (10 - 10) 5) (mkObject 1 1 1) = false.
Proof.
  pose proof (filled_side_closes_child (Node.new_leaf 0 0 10 5)
                (mkObject 0 10 5) (mkObject 1 1 1)
                (conj eq_refl eq_refl)) as [Hu Hr].
  split; [apply (Hu eq_refl); reflexivity | apply (Hr eq_refl); reflexivity].
Defined.

(** * Theorems on the binary64 model *)

(** ** Facts on binary64 operations *)

Lemma positive_finite_inv (a : Double.t) :
  Double.positive_finite a = true -> exists m e, a = S754_finite false m e.
Proof.
  destruct a as [s | s | | [|] m e]; try discriminate. intros _. now exists m, e.
Qed.

Lemma leb_refl_finite (a : Double.t) :
  Double.positive_finite a = true -> Double.leb a a = true.
Proof.
  intros H. destruct (positive_finite_inv a H) as (m & e & ->).
  unfold Double.leb, SFleb, SFcompare. rewrite Z.compare_refl.
  change (Pos.compare_cont Eq m m) with (Pos.compare m m).
  now rewrite Pos.compare_refl.
Qed.


Lemma leb_zero_false (a : Double.t) :
  Double.positive_finite a = true -> Double.leb a Double.zero = false.
Proof.
  intros H. destruct (positive_finite_inv a H) as (m & e & ->). reflexivity.
Qed.











(** ** Trees of the binary64 model *)

Lemma DNode_t_ind (P : DNode.t -> Prop) :
  (forall x y w l u r obj,
      match u with Some c => P c | None => True end ->
      match r with Some c => P c | None => True end ->
      P (DNode.mk x y w l u r obj)) ->
  forall n, P n.
Proof.
  intros H. fix IH 1. intros [x y w l u r obj]. apply H.
  - destruct u; [apply IH | exact I].
  - destruct r; [apply IH | exact I].
Qed.



Lemma dfits_iff (n : DNode.t) (o : DObject.t) :
  DNode.fits n o = true <->
  Double.leb (DObject.length o) (DNode.length n) = true /\
  Double.leb (DObject.width o) (DNode.width n) = true.
Proof. unfold DNode.fits. apply andb_true_iff. Qed.

Lemma is_valid_iff (o : DObject.t) :
  DPacker.is_valid o = true <->
  Double.positive_finite (DObject.width o) = true /\
  Double.positive_finite (DObject.length o) = true.
Proof. unfold DPacker.is_valid. apply andb_true_iff. Qed.

Lemma dfresh_fits (x y : Double.t) (o : DObject.t) :
  DPacker.is_valid o = true ->
  DNode.fits (DNode.new_leaf x y (DObject.width o) (DObject.length o)) o = true.
Proof.
  intros Hv. apply is_valid_iff in Hv. destruct Hv as [Hw Hl].
  apply dfits_iff. cbn [DNode.new_leaf DNode.new DNode.length DNode.width].
  split; now apply leb_refl_finite.
Qed.


Lemma dsearch_fails_on_closed (o : DObject.t) :
  DPacker.is_valid o = true ->
  forall t, DNode.Forall region_closed t -> DPacker.insert_search t o = None.
Proof.
  intros Hv. apply is_valid_iff in Hv. destruct Hv as [Hw Hl].
  induction t as [x y w l u r obj IHu IHr] using DNode_t_ind.
  cbn [DNode.Forall]. intros (Hn & Hu & Hr). cbn [DPacker.insert_search].
  destruct (DNode.full (DNode.mk x y w l u r obj)
            || negb (DNode.leaf (DNode.mk x y w l u r obj))) eqn:Ein.
  - destruct r as [cr|]; [rewrite (IHr Hr)|]; cbn [option_map];
      (destruct u as [cu|]; [rewrite (IHu Hu)|]; reflexivity).
  - apply orb_false_iff in Ein. destruct Ein as [_ Hleaf].
    apply negb_false_iff in Hleaf.
    destruct (DNode.fits (DNode.mk x y w l u r obj) o) eqn:Hfits; [|reflexivity].
    apply dfits_iff in Hfits. cbn [DNode.length DNode.width] in Hfits.
    destruct Hfits as [Hfl Hfw].
    destruct (Hn Hleaf) as [H | H]; cbn [DNode.length DNode.width] in H; subst.
    + rewrite (leb_zero_false _ Hw) in Hfw. discriminate.
    + rewrite (leb_zero_false _ Hl) in Hfl. discriminate.
Qed.

Lemma dpack_object_found (r : DNode.t) (o : DObject.t) (p : path) :
  DPacker.insert_search r o = Some p ->
  DPacker.pack_object r o =
    (DNode.update p (fun n => DNode.add_object n o) r, None).
Proof.
  unfold DPacker.pack_object. now intros ->.
Qed.

Lemma dpack_object_grows (r : DNode.t) (o : DObject.t) :
  DPacker.is_valid o = true ->
  DPacker.insert_search r o = None ->
  DPacker.pack_object r o =
    (match DPacker.choose_growth r (DObject.width o) (DObject.length o) with
     | GrowUp => dgrown_up r o
     | GrowRight => dgrown_right r o
     end, None).
Proof.
  intros Hv. unfold DPacker.pack_object, DPacker.grow. intros ->.
  destruct (DPacker.choose_growth r (DObject.width o) (DObject.length o)).
  - unfold DPacker.grow_up. cbn [DNode.get DNode.child DNode.up DNode.new].
    unfold DPacker.insert_search.
    cbn [DNode.new_leaf DNode.new DNode.full DNode.leaf DNode.object DNode.up
         orb negb].
    change (DNode.mk Double.zero (DNode.length r) (DObject.width o)
              (DObject.length o) None None None)
      with (DNode.new_leaf Double.zero (DNode.length r) (DObject.width o)
              (DObject.length o)).
    rewrite (dfresh_fits _ _ o Hv). reflexivity.
  - unfold DPacker.grow_right. cbn [DNode.get DNode.child DNode.right DNode.new].
    unfold DPacker.insert_search.
    cbn [DNode.new_leaf DNode.new DNode.full DNode.leaf DNode.object DNode.up
         orb negb].
    change (DNode.mk (DNode.width r) Double.zero (DObject.width o)
              (DObject.length o) None None None)
      with (DNode.new_leaf (DNode.width r) Double.zero (DObject.width o)
              (DObject.length o)).
    rewrite (dfresh_fits _ _ o Hv). reflexivity.
Qed.

Lemma dpack_object_no_error (r : DNode.t) (o : DObject.t) :
  DPacker.is_valid o = true -> snd (DPacker.pack_object r o) = None.
Proof.
  intros Hv. destruct (DPacker.insert_search r o) as [p|] eqn:E.
  - now rewrite (dpack_object_found r o p E).
  - now rewrite (dpack_object_grows r o Hv E).
Qed.

Lemma dpack_loop_valid (r : DNode.t) (o : DObject.t) (objs : list DObject.t) :
  DPacker.is_valid o = true ->
  DPacker.pack_loop r (o :: objs) =
  DPacker.pack_loop (fst (DPacker.pack_object r o)) objs.
Proof.
  intros Hv. cbn [DPacker.pack_loop]. rewrite Hv.
  pose proof (dpack_object_no_error r o Hv) as He.
  destruct (DPacker.pack_object r o) as [r' e]. cbn in He. now subst e.
Qed.


Lemma dpack_unfold (p : DPacker.t) :
  DPacker.pack p =
  (match snd (DPacker.pack_loop DPacker.seed (DPacker.objects p)) with
   | None =>
       DPacker.Ok
         (DNode.width (fst (DPacker.pack_loop DPacker.seed (DPacker.objects p))),
          DNode.length (fst (DPacker.pack_loop DPacker.seed (DPacker.objects p))))
   | Some e => DPacker.Err e
   end,
   DPacker.mk (DPacker.objects p)
     (Some (fst (DPacker.pack_loop DPacker.seed (DPacker.objects p))))).
Proof.
  unfold DPacker.pack.
  now destruct (DPacker.pack_loop DPacker.seed (DPacker.objects p)).
Qed.

(** ** Extents of the regions *)


Lemma seed_tree_ok : tree_ok DPacker.seed.
Proof.
  split; cbn; (split; [|tauto]).
  - split; reflexivity.
  - intros _. now left.
Qed.



(** On a tree whose leaves are closed a valid item is never placed by the
    search: the bin grows and the item goes to the fresh region. *)
Lemma dpack_object_valid (r : DNode.t) (o : DObject.t) :
  DPacker.is_valid o = true -> tree_ok r ->
  DPacker.pack_object r o =
    (match DPacker.choose_growth r (DObject.width o) (DObject.length o) with
     | GrowUp => dgrown_up r o
     | GrowRight => dgrown_right r o
     end, None).
Proof.
  intros Hv [_ Hcl]. apply (dpack_object_grows r o Hv).
  now apply dsearch_fails_on_closed.
Qed.




(** ** Items outside the input contract *)






(** ** Placed rectangles of the binary64 model *)
















(** ** The empty sequence *)

Lemma ltb_irrefl (a : Double.t) : Double.ltb a a = false.
Proof.
  unfold Double.ltb, SFltb, SFcompare.
  destruct a as [s | [|] | | [|] m e]; try reflexivity;
    rewrite Z.compare_refl;
    change (Pos.compare_cont Eq m m) with (Pos.compare m m);
    now rewrite Pos.compare_refl.
Qed.

Lemma max_zero_l (a : Double.t) :
  Double.positive_finite a = true -> Double.max Double.zero a = a.
Proof.
  intros H. destruct (positive_finite_inv a H) as (m & e & ->). reflexivity.
Qed.

Lemma add_zero_l (a : Double.t) :
  Double.positive_finite a = true -> Double.add Double.zero a = a.
Proof.
  intros H. destruct (positive_finite_inv a H) as (m & e & ->). reflexivity.
Qed.

(** With the empty region as the initial bin, one valid item gives a bin of
    exactly its extents and is placed at the origin plus the offsets, as
    section 8 of the spec asks of a single item. *)
Lemma single_item_bin (o : DObject.t) (offset_x offset_y : Double.t) :
  DPacker.is_valid o = true ->
  fst (DPacker.pack (DPacker.new [o]))
    = DPacker.Ok (DObject.width o, DObject.length o) /\
  DPacker.arrange (snd (DPacker.pack (DPacker.new [o]))) offset_x offset_y
    = [mkDPlaceCall o (Double.add Double.zero offset_x)
                      (Double.add Double.zero offset_y)].
Proof.
  intros Hv. pose proof Hv as Hv'. apply is_valid_iff in Hv'.
  destruct Hv' as [Hw Hl].
  assert (E : DPacker.pack_loop DPacker.seed [o] = (dgrown_up DPacker.seed o, None)).
  { rewrite (dpack_loop_valid _ o [] Hv).
    rewrite (dpack_object_valid _ o Hv seed_tree_ok). cbn [fst DPacker.pack_loop].
    unfold DPacker.choose_growth, DPacker.skew_up, DPacker.skew_right.
    cbn [DPacker.seed DNode.new_leaf DNode.new DNode.width DNode.length].
    rewrite !(max_zero_l _ Hw), !(max_zero_l _ Hl),
            !(add_zero_l _ Hw), !(add_zero_l _ Hl), !ltb_irrefl.
    reflexivity. }
  rewrite dpack_unfold. cbn [DPacker.objects DPacker.new]. rewrite E.
  cbn [fst snd DPacker.arrange DPacker.root dgrown_up DNode.width DNode.length
       DPacker.seed DNode.new_leaf DNode.new].
  rewrite (max_zero_l _ Hw), (add_zero_l _ Hl). split; reflexivity.
Qed.


(** ** Geometry of a split on binary64

    The rectangles of the children [add_object] creates, in exact terms,
    when its four double operations are exact. *)

Lemma ten_by_ten_exact_split (w l : Z) :
  (w, l) = (4, 2)%Z \/ (w, l) = (2, 4)%Z ->
  exact_split ten_by_ten (dobj 0 w l).
Proof.
  intros [[= -> ->] | [= -> ->]]; repeat split; vm_compute; reflexivity.
Defined.

(** X7: when the operations of the split are exact, the [up] child lies
    clear of the placed item, and, the item being no longer than the region
    and of non-negative length, within the region. *)
Theorem up_child_clear_and_inside (n : DNode.t) (o : DObject.t) (u : DNode.t)
    (Hu : DNode.up (DNode.add_object n o) = Some u)
    (Hexact : exact_split n o) :
  rect_disjoint (dregion u) (dfootprint n o) /\
  (Double.value (DObject.length o) <= Double.value (DNode.length n) ->
   0 <= Double.value (DObject.length o) ->
   rect_inside (dregion u) (dregion n)).
Proof.
  exact_values Hexact. dsplit_child Hu. rewrite Ey, El. split.
  - right; right; right. lra.
  - intros Hl H0. repeat split; lra.
Qed.

Lemma up_child_clear_and_inside_witness :
  let n := ten_by_ten in
  let o := dobj 0 4 2 in
  let u := DNode.new_leaf Double.zero (Double.of_Z 2)
             (Double.of_Z 10) (Double.of_Z 8) in
  rect_disjoint (dregion u) (dfootprint n o) /\
  (Double.value (DObject.length o) <= Double.value (DNode.length n) ->
   0 <= Double.value (DObject.length o) ->
   rect_inside (dregion u) (dregion n)).
Proof.
  intros n o u.
  apply (up_child_clear_and_inside n o u);
    [vm_compute; reflexivity | apply ten_by_ten_exact_split; now left].
Defined.

(** X8: the [right] child starts at x + item.length.  When the operations
    of the split are exact and the item's length is non-negative, the child
    lies within the region exactly when the item is no longer than it is
    wide. *)
Theorem right_child_inside_iff (n : DNode.t) (o : DObject.t) (r : DNode.t)
    (Hr : DNode.right (DNode.add_object n o) = Some r)
    (Hexact : exact_split n o)
    (Hl : 0 <= Double.value (DObject.length o)) :
  rect_inside (dregion r) (dregion n) <->
  Double.value (DObject.length o) <= Double.value (DObject.width o).
Proof.
  exact_values Hexact. dsplit_child Hr. rewrite Ex, Ew. split.
  - intros (_ & H & _). lra.
  - intros H. repeat split; lra.
Qed.

Lemma right_child_inside_iff_witness :
  let n := ten_by_ten in
  let o := dobj 0 2 4 in
  let r := DNode.new_leaf (Double.of_Z 4) Double.zero
             (Double.of_Z 8) (Double.of_Z 10) in
  rect_inside (dregion r) (dregion n) <->
  Double.value (DObject.length o) <= Double.value (DObject.width o).
Proof.
  intros n o r.
  apply (right_child_inside_iff n o r);
    [vm_compute; reflexivity | apply ten_by_ten_exact_split; now right
    | vm_compute; discriminate].
Defined.

(** X9: when the operations of the split are exact, the item has a positive
    length, is no longer than the region and no wider, the [right] child
    overlaps the placed item exactly when the item is wider than it is
    long. *)
Theorem right_child_overlaps_item_iff (n : DNode.t) (o : DObject.t)
    (r : DNode.t)
    (Hr : DNode.right (DNode.add_object n o) = Some r)
    (Hexact : exact_split n o)
    (Hl : 0 < Double.value (DObject.length o))
    (Hfl : Double.value (DObject.length o) <= Double.value (DNode.length n))
    (Hfw : Double.value (DObject.width o) <= Double.value (DNode.width n)) :
  rect_overlap (dregion r) (dfootprint n o) <->
  Double.value (DObject.length o) < Double.value (DObject.width o).
Proof.
  exact_values Hexact. dsplit_child Hr. rewrite Ex, Ew. split.
  - intros (H & _). lra.
  - intros H. repeat split; lra.
Qed.

Lemma right_child_overlaps_item_iff_witness :
  let n := ten_by_ten in
  let o := dobj 0 4 2 in
  let r := DNode.new_leaf (Double.of_Z 2) Double.zero
             (Double.of_Z 6) (Double.of_Z 10) in
  rect_overlap (dregion r) (dfootprint n o) <->
  Double.value (DObject.length o) < Double.value (DObject.width o).
Proof.
  intros n o r.
  apply (right_child_overlaps_item_iff n o r);
    [vm_compute; reflexivity | apply ten_by_ten_exact_split; now left
    | vm_compute; reflexivity | vm_compute; discriminate
    | vm_compute; discriminate].
Defined.

(** X10: when the operations of the split are exact, the two children
    overlap each other whenever the item's length is non-negative and the
    region is wider and longer than the item and wider than the item is
    long: the [right] child keeps the region's whole length. *)
Theorem children_overlap (n : DNode.t) (o : DObject.t) (u r : DNode.t)
    (Hu : DNode.up (DNode.add_object n o) = Some u)
    (Hr : DNode.right (DNode.add_object n o) = Some r)
    (Hexact : exact_split n o)
    (Hl : 0 <= Double.value (DObject.length o))
    (Hw_room : Double.value (DObject.width o) < Double.value (DNode.width n))
    (Hl_room : Double.value (DObject.length o) < Double.value (DNode.length n))
    (Hstart : Double.value (DObject.length o) < Double.value (DNode.width n)) :
  rect_overlap (dregion u) (dregion r).
Proof.
  exact_values Hexact. dsplit_child Hu. dsplit_child Hr.
  rewrite Ex, Ew, Ey, El. repeat split; lra.
Qed.

Lemma children_overlap_witness :
  rect_overlap
    (dregion (DNode.new_leaf Double.zero (Double.of_Z 2)
                (Double.of_Z 10) (Double.of_Z 8)))
    (dregion (DNode.new_leaf (Double.of_Z 2) Double.zero
                (Double.of_Z 6) (Double.of_Z 10))).
Proof.
  apply (children_overlap ten_by_ten (dobj 0 4 2));
    [vm_compute; reflexivity | vm_compute; reflexivity
    | apply ten_by_ten_exact_split; now left
    | vm_compute; discriminate | vm_compute; reflexivity
    | vm_compute; reflexivity | vm_compute; reflexivity].
Defined.

(** ** NaN and infinite extents *)

Lemma leb_nan_l (a : Double.t) : Double.leb S754_nan a = false.
Proof. reflexivity. Qed.

Lemma leb_nan_r (a : Double.t) : Double.leb a S754_nan = false.
Proof. now destruct a. Qed.

(** X12: [fits] is false as soon as one of the four numbers it compares is
    NaN: the item's length or width, or the region's. *)
Theorem fits_false_on_nan (n : DNode.t) (o : DObject.t)
    (Hnan : DObject.length o = S754_nan \/ DObject.width o = S754_nan \/
            DNode.length n = S754_nan \/ DNode.width n = S754_nan) :
  DNode.fits n o = false.
Proof.
  unfold DNode.fits.
  destruct Hnan as [H | [H | [H | H]]]; rewrite H;
    rewrite ?leb_nan_l, ?leb_nan_r, ?andb_false_r; reflexivity.
Qed.

Lemma fits_false_on_nan_witness :
  DNode.fits ten_by_ten (DObject.mk 0 (Double.of_Z 1) S754_nan) = false.
Proof.
  apply (fits_false_on_nan ten_by_ten). left. reflexivity.
Defined.

(** X13: an infinite item fits a region that is infinite the same way, and
    the split then leaves a child with a NaN extent: for infinite widths the
    [right] child's width is NaN, for infinite lengths the [up] child's
    length is NaN. *)
Theorem infinite_split_gives_nan (n : DNode.t) (o : DObject.t) :
  (DNode.width n = S754_infinity false ->
   DObject.width o = S754_infinity false ->
   Double.leb (DObject.length o) (DNode.length n) = true ->
   DNode.fits n o = true /\
   forall r, DNode.right (DNode.add_object n o) = Some r ->
             DNode.width r = S754_nan) /\
  (DNode.length n = S754_infinity false ->
   DObject.length o = S754_infinity false ->
   Double.leb (DObject.width o) (DNode.width n) = true ->
   DNode.fits n o = true /\
   forall u, DNode.up (DNode.add_object n o) = Some u ->
             DNode.length u = S754_nan).
Proof.
  split; intros Hn Ho Hle; (split; [apply dfits_iff; rewrite Hn, Ho; auto|]);
    intros c Hc; unfold DNode.add_object, DNode.new_leaf, DNode.new in Hc;
    cbn [DNode.up DNode.right] in Hc; injection Hc as <-;
    cbn [DNode.width DNode.length]; now rewrite Hn, Ho.
Qed.
